(** * The chunk-iteration protocol of be/src/storage/chunk_iterator.h

    A shallow embedding of [starrocks::vectorized::ChunkIterator]: the three
    schema views an iterator owns (base, dictionary-encoded, projected
    output), the public fetch functions with their virtual [do_get_next]
    hooks, and the timing decorator built by [timed_chunk_iterator].

    Member functions are state-passing functions on the iterator object.
    A call either returns, or the process is brought down by a failed
    [DCHECK]; both are results of the [Outcome] monad below. *)

From stdpp Require Import base option list gmap strings.

Local Open Scope N_scope.

(** ** Results of a call *)

(** A call returns a value or dies on an assertion. *)
Inductive Outcome (A : Type) : Type :=
  | Returned (a : A)
  | Aborted.
Arguments Returned {A} a.
Arguments Aborted {A}.

#[global] Instance Outcome_ret : MRet Outcome := λ A a, Returned a.
#[global] Instance Outcome_bind : MBind Outcome := λ A B k m,
  match m with
  | Returned a => k a
  | Aborted => Aborted
  end.
#[global] Instance Outcome_fmap : FMap Outcome := λ A B g m,
  match m with
  | Returned a => Returned (g a)
  | Aborted => Aborted
  end.

(** Modelled from the spec: [starrocks::Status] is only forward-declared in
    the header. Its values follow the error taxonomy of the specification:
    Ok, EndOfFile, NotSupported and a generic failure. *)
Inductive Status : Type :=
  | OK
  | EndOfFile
  | NotSupported (msg : string)
  | Failure (msg : string).

(** [ColumnId] is [uint32_t]; ids are only compared, never computed with. *)
Definition ColumnId : Type := N.

(** ** What the header includes but does not define

    column/schema.h, column/chunk.h, runtime/global_dict/types.h,
    storage/row_source_mask.h and the glog macros lie outside this
    development. Their types are kept abstract, together with the only
    operations the header uses on them; every definition below takes them
    as an environment. *)
Class Env : Type := {
  (** [Field] with its [id()] accessor and the static
      [Field::convert_to_dict_field]. *)
  Field : Type;
  Field_id : Field → ColumnId;
  convert_to_dict_field : Field → Field;
  (** The mapped type of [ColumnIdToGlobalDictMap]. *)
  GlobalDict : Type;
  (** A columnar batch, and the tag of one row of a merge. *)
  Chunk : Type;
  RowSourceMask : Type;
  (** The condition [DCHECK_CHUNK] asserts about its argument. *)
  chunk_check : option Chunk → bool;
  (** Whether the build defines [NDEBUG], which compiles [DCHECK] out. *)
  NDEBUG : bool;
  (** The chunk size used by the one-argument constructor. *)
  DEFAULT_CHUNK_SIZE : Z
}.

(** Pointer arguments: [None] is [nullptr], [Some v] points to contents [v]. *)
Definition ChunkPtr `{Env} : Type := option Chunk.
Definition RowidPtr : Type := option (list N).
Definition SourceMasksPtr `{Env} : Type := option (list RowSourceMask).

(** [DCHECK(cond)]: nothing in an NDEBUG build, fatal otherwise when [cond]
    is false. *)
Definition DCHECK `{Env} (cond : bool) : Outcome unit :=
  if NDEBUG then Returned tt
  else if cond then Returned tt else Aborted.

Definition DCHECK_CHUNK `{Env} (chunk : ChunkPtr) : Outcome unit :=
  DCHECK (chunk_check chunk).

(** [unordered_map::count] and [unordered_set::count]: 0 or 1. *)
Definition map_count {V} (m : gmap ColumnId V) (k : ColumnId) : N :=
  match m !! k with Some _ => 1 | None => 0 end.

Definition set_count (s : gset ColumnId) (k : ColumnId) : N :=
  if decide (k ∈ s) then 1 else 0.

(** ** Schema *)

(** Modelled from the spec: a schema is an ordered sequence of fields.
    Of column/schema.h the header uses [fields], [num_fields], [append]
    (push at the back) and [reserve] (capacity only). *)
Record Schema `{Env} : Type := mkSchema { fields : list Field }.

Definition Schema_empty `{Env} : Schema := mkSchema _ [].
Definition num_fields `{Env} (s : Schema) : N := N.of_nat (length (fields s)).
Definition Schema_append `{Env} (s : Schema) (field : Field) : Schema :=
  mkSchema _ (fields s ++ [field]).
Definition Schema_reserve `{Env} (s : Schema) (n : N) : Schema := s.

(** ** The iterator object *)

Record ChunkIterator `{Env} : Type := mkChunkIterator {
  _schema : Schema;
  _encoded_schema : Schema;
  _output_schema : Schema;
  _is_init_output_schema : bool;
  _chunk_size : Z
}.

(** [explicit ChunkIterator(Schema schema)] *)
Definition ChunkIterator_new `{Env} (schema : Schema) : ChunkIterator :=
  mkChunkIterator _ schema Schema_empty Schema_empty false DEFAULT_CHUNK_SIZE.

(** [ChunkIterator(Schema schema, int chunk_size)] *)
Definition ChunkIterator_new_sized `{Env} (schema : Schema) (chunk_size : Z)
    : ChunkIterator :=
  mkChunkIterator _ schema Schema_empty Schema_empty false chunk_size.

Definition set_encoded_schema `{Env} (it : ChunkIterator) (s : Schema)
    : ChunkIterator :=
  mkChunkIterator _ (_schema it) s (_output_schema it)
    (_is_init_output_schema it) (_chunk_size it).

Definition set_output_schema `{Env} (it : ChunkIterator) (s : Schema)
    : ChunkIterator :=
  mkChunkIterator _ (_schema it) (_encoded_schema it) s
    (_is_init_output_schema it) (_chunk_size it).

Definition set_is_init_output_schema `{Env} (it : ChunkIterator) (b : bool)
    : ChunkIterator :=
  mkChunkIterator _ (_schema it) (_encoded_schema it) (_output_schema it)
    b (_chunk_size it).

Definition schema `{Env} (it : ChunkIterator) : Schema := _schema it.

Definition chunk_size `{Env} (it : ChunkIterator) : Z := _chunk_size it.

(** [_encoded_schema.num_fields() == 0 ? _schema : _encoded_schema] *)
Definition encoded_schema `{Env} (it : ChunkIterator) : Schema :=
  if (num_fields (_encoded_schema it) =? 0) then _schema it
  else _encoded_schema it.

(** One turn of the loop of [init_encoded_schema]. *)
Definition encode_step `{Env} (dict_maps : gmap ColumnId GlobalDict)
    (it : ChunkIterator) (field : Field) : ChunkIterator :=
  let cid := Field_id field in
  if negb (map_count dict_maps cid =? 0) then
    set_encoded_schema it
      (Schema_append (_encoded_schema it) (convert_to_dict_field field))
  else
    set_encoded_schema it (Schema_append (_encoded_schema it) field).

Definition init_encoded_schema `{Env} (dict_maps : gmap ColumnId GlobalDict)
    (it : ChunkIterator) : Outcome (Status * ChunkIterator) :=
  let it := set_encoded_schema it
              (Schema_reserve (_encoded_schema it) (num_fields (schema it))) in
  let it := foldl (encode_step dict_maps) it (fields (schema it)) in
  mret (OK, it).

(** One turn of the loop of [init_output_schema]. *)
Definition output_step `{Env} (unused_output_column_ids : gset ColumnId)
    (it : ChunkIterator) (field : Field) : ChunkIterator :=
  let cid := Field_id field in
  if set_count unused_output_column_ids cid =? 0 then
    set_output_schema it (Schema_append (_output_schema it) field)
  else it.

Definition init_output_schema `{Env} (unused_output_column_ids : gset ColumnId)
    (it : ChunkIterator) : Outcome (Status * ChunkIterator) :=
  if _is_init_output_schema it then mret (OK, it)
  else
    let it := foldl (output_step unused_output_column_ids) it
                (fields (encoded_schema it)) in
    _ ← DCHECK (0 <? num_fields (_output_schema it));
    let it := set_is_init_output_schema it true in
    mret (OK, it).

Definition output_schema `{Env} (it : ChunkIterator) : Schema :=
  if _is_init_output_schema it then _output_schema it
  else encoded_schema it.

(** ** Fetching

    A concrete iterator derives from [ChunkIterator]. [Self] is the state
    of the derived object, [base] its [ChunkIterator] subobject, and the
    remaining components are its virtual functions: the pure virtual ones
    are mandatory, and an overridable one is [None] when the derived class
    keeps the definition of the header. *)
Record ChunkIteratorClass `{Env} (Self : Type) : Type := mkChunkIteratorClass {
  base : Self → ChunkIterator;
  vt_close : Self → Self;
  vt_merged_rows : option (Self → N);
  vt_do_get_next : Self → ChunkPtr → Outcome (Status * Self * ChunkPtr);
  vt_do_get_next_rowid :
    option (Self → ChunkPtr → RowidPtr →
            Outcome (Status * Self * ChunkPtr * RowidPtr));
  vt_do_get_next_masks :
    option (Self → ChunkPtr → SourceMasksPtr →
            Outcome (Status * Self * ChunkPtr * SourceMasksPtr))
}.
Arguments mkChunkIteratorClass {_ _} _ _ _ _ _ _.
Arguments base {_ _} _ _.
Arguments vt_close {_ _} _ _.
Arguments vt_merged_rows {_ _} _.
Arguments vt_do_get_next {_ _} _ _ _.
Arguments vt_do_get_next_rowid {_ _} _.
Arguments vt_do_get_next_masks {_ _} _.

Definition rowid_not_supported : string :=
  "Chunk* chunk, vector<uint32_t>* rowid) not supported".
Definition sources_not_supported : string :=
  "get chunk with sources not supported".

(** The bodies the header gives to the overridable functions. *)
Definition merged_rows_default {Self : Type} (self : Self) : N := 0.

Definition do_get_next_rowid_default `{Env} {Self : Type}
    (self : Self) (chunk : ChunkPtr) (rowid : RowidPtr)
    : Outcome (Status * Self * ChunkPtr * RowidPtr) :=
  mret (NotSupported rowid_not_supported, self, chunk, rowid).

Definition do_get_next_masks_default `{Env} {Self : Type}
    (cls : ChunkIteratorClass Self)
    (self : Self) (chunk : ChunkPtr) (source_masks : SourceMasksPtr)
    : Outcome (Status * Self * ChunkPtr * SourceMasksPtr) :=
  match source_masks with
  | None =>
      '(st, self, chunk) ← vt_do_get_next cls self chunk;
      mret (st, self, chunk, source_masks)
  | Some _ =>
      mret (NotSupported sources_not_supported, self, chunk, source_masks)
  end.

(** Virtual dispatch. *)
Definition close `{Env} {Self : Type} (cls : ChunkIteratorClass Self)
    : Self → Self := vt_close cls.

Definition merged_rows `{Env} {Self : Type} (cls : ChunkIteratorClass Self)
    : Self → N := default merged_rows_default (vt_merged_rows cls).

Definition do_get_next `{Env} {Self : Type} (cls : ChunkIteratorClass Self)
    : Self → ChunkPtr → Outcome (Status * Self * ChunkPtr) :=
  vt_do_get_next cls.

Definition do_get_next_rowid `{Env} {Self : Type}
    (cls : ChunkIteratorClass Self)
    : Self → ChunkPtr → RowidPtr →
      Outcome (Status * Self * ChunkPtr * RowidPtr) :=
  default do_get_next_rowid_default (vt_do_get_next_rowid cls).

Definition do_get_next_masks `{Env} {Self : Type}
    (cls : ChunkIteratorClass Self)
    : Self → ChunkPtr → SourceMasksPtr →
      Outcome (Status * Self * ChunkPtr * SourceMasksPtr) :=
  default (do_get_next_masks_default cls) (vt_do_get_next_masks cls).

(** The three public overloads of [get_next]. *)
Definition get_next `{Env} {Self : Type} (cls : ChunkIteratorClass Self)
    (self : Self) (chunk : ChunkPtr) : Outcome (Status * Self * ChunkPtr) :=
  '(st, self, chunk) ← do_get_next cls self chunk;
  _ ← DCHECK_CHUNK chunk;
  mret (st, self, chunk).

Definition get_next_rowid `{Env} {Self : Type} (cls : ChunkIteratorClass Self)
    (self : Self) (chunk : ChunkPtr) (rowid : RowidPtr)
    : Outcome (Status * Self * ChunkPtr * RowidPtr) :=
  '(st, self, chunk, rowid) ← do_get_next_rowid cls self chunk rowid;
  _ ← DCHECK_CHUNK chunk;
  mret (st, self, chunk, rowid).

Definition get_next_masks `{Env} {Self : Type} (cls : ChunkIteratorClass Self)
    (self : Self) (chunk : ChunkPtr) (source_masks : SourceMasksPtr)
    : Outcome (Status * Self * ChunkPtr * SourceMasksPtr) :=
  '(st, self, chunk, source_masks) ←
    do_get_next_masks cls self chunk source_masks;
  _ ← DCHECK_CHUNK chunk;
  mret (st, self, chunk, source_masks).

(** ** The timing decorator *)

(** Modelled from the spec: [timed_chunk_iterator] is declared in the
    header and defined elsewhere. Following section 4.4 of the
    specification, the iterator it returns holds the wrapped iterator and
    the external accumulator; it forwards [schema()], [chunk_size()],
    [close()] and [merged_rows()], and each of its fetch functions runs the
    public fetch of the wrapped iterator and adds the measured time to the
    accumulator. Wall time is no part of the embedding: [elapsed] gives the
    time measured around a fetch started in a given state of the wrapped
    iterator. *)
Record TimedChunkIterator (Self : Type) : Type := mkTimedChunkIterator {
  _iter : Self;
  _counter : N
}.
Arguments mkTimedChunkIterator {_} _ _.
Arguments _iter {_} _.
Arguments _counter {_} _.

Definition timed_chunk_iterator {Self : Type} (iter : Self) (counter : N)
    : TimedChunkIterator Self :=
  mkTimedChunkIterator iter counter.

Definition timed_do_get_next `{Env} {Self : Type}
    (inner : ChunkIteratorClass Self) (elapsed : Self → N)
    (self : TimedChunkIterator Self) (chunk : ChunkPtr)
    : Outcome (Status * TimedChunkIterator Self * ChunkPtr) :=
  '(st, iter, chunk) ← get_next inner (_iter self) chunk;
  mret (st, mkTimedChunkIterator iter (_counter self + elapsed (_iter self)),
        chunk).

Definition timed_do_get_next_rowid `{Env} {Self : Type}
    (inner : ChunkIteratorClass Self) (elapsed : Self → N)
    (self : TimedChunkIterator Self) (chunk : ChunkPtr) (rowid : RowidPtr)
    : Outcome (Status * TimedChunkIterator Self * ChunkPtr * RowidPtr) :=
  '(st, iter, chunk, rowid) ← get_next_rowid inner (_iter self) chunk rowid;
  mret (st, mkTimedChunkIterator iter (_counter self + elapsed (_iter self)),
        chunk, rowid).

Definition timed_do_get_next_masks `{Env} {Self : Type}
    (inner : ChunkIteratorClass Self) (elapsed : Self → N)
    (self : TimedChunkIterator Self) (chunk : ChunkPtr)
    (source_masks : SourceMasksPtr)
    : Outcome (Status * TimedChunkIterator Self * ChunkPtr * SourceMasksPtr) :=
  '(st, iter, chunk, source_masks) ←
    get_next_masks inner (_iter self) chunk source_masks;
  mret (st, mkTimedChunkIterator iter (_counter self + elapsed (_iter self)),
        chunk, source_masks).

Definition TimedChunkIterator_class `{Env} {Self : Type}
    (inner : ChunkIteratorClass Self) (elapsed : Self → N)
    : ChunkIteratorClass (TimedChunkIterator Self) :=
  mkChunkIteratorClass
    (λ self, base inner (_iter self))
    (λ self, mkTimedChunkIterator (close inner (_iter self)) (_counter self))
    (Some (λ self, merged_rows inner (_iter self)))
    (timed_do_get_next inner elapsed)
    (Some (timed_do_get_next_rowid inner elapsed))
    (Some (timed_do_get_next_masks inner elapsed)).

(** ** The words of the specification *)

(** The field the specification puts in the place of [field]: its
    dictionary form when the map has an entry for its id, else itself. *)
Definition encoded_form `{Env} (dict_maps : gmap ColumnId GlobalDict)
    (field : Field) : Field :=
  if decide (is_Some (dict_maps !! Field_id field))
  then convert_to_dict_field field else field.

(** The fields the specification keeps: those whose id is not unused. *)
Definition kept_fields `{Env} (unused : gset ColumnId) (l : list Field)
    : list Field :=
  filter (λ field, Field_id field ∉ unused) l.

(** [unused] names the id of every field of [s]. *)
Definition covers `{Env} (unused : gset ColumnId) (s : Schema) : Prop :=
  ∀ field, field ∈ fields s → Field_id field ∈ unused.

(** The states of the base object a program can build: a constructor,
    followed by calls of the two initialisers that return. *)
Inductive reachable `{Env} : ChunkIterator → Prop :=
  | reachable_new schema :
      reachable (ChunkIterator_new schema)
  | reachable_new_sized schema chunk_size :
      reachable (ChunkIterator_new_sized schema chunk_size)
  | reachable_init_encoded_schema dict_maps it st it' :
      reachable it →
      init_encoded_schema dict_maps it = Returned (st, it') →
      reachable it'
  | reachable_init_output_schema unused it st it' :
      reachable it →
      init_output_schema unused it = Returned (st, it') →
      reachable it'.

(** A caller that asks for the projection once per entry of [calls]. *)
Fixpoint init_output_schema_each `{Env} (calls : list (gset ColumnId))
    (it : ChunkIterator) : Outcome (list Status * ChunkIterator) :=
  match calls with
  | [] => mret ([], it)
  | unused :: calls =>
      '(st, it) ← init_output_schema unused it;
      '(sts, it) ← init_output_schema_each calls it;
      mret (st :: sts, it)
  end.

(** ** Concrete collaborators for the scenarios

    One environment per build mode: [scenario_env false] keeps [DCHECK],
    [scenario_env true] is an NDEBUG build. *)

Inductive LogicalType : Type := TYPE_INT | TYPE_BIGINT | TYPE_VARCHAR.

Record ColumnField : Type := mkColumnField {
  cf_id : ColumnId;
  cf_name : string;
  cf_type : LogicalType
}.

(** The dictionary form of a column is the same column typed INT. *)
Definition cf_to_dict (f : ColumnField) : ColumnField :=
  mkColumnField (cf_id f) (cf_name f) TYPE_INT.

(** A batch is a list of columns; it is well formed when its columns have
    one length. *)
Definition columns_ok (chunk : option (list (list Z))) : bool :=
  match chunk with
  | None => true
  | Some [] => true
  | Some (c :: cs) => forallb (λ c', (length c' =? length c)%nat) cs
  end.

Definition scenario_env (ndebug : bool) : Env := {|
  Field := ColumnField;
  Field_id := cf_id;
  convert_to_dict_field := cf_to_dict;
  GlobalDict := list string;
  Chunk := list (list Z);
  RowSourceMask := N * bool;
  chunk_check := columns_ok;
  NDEBUG := ndebug;
  DEFAULT_CHUNK_SIZE := 4096
|}.

Definition field1 : ColumnField := mkColumnField 1 "k1" TYPE_BIGINT.
Definition field2 : ColumnField := mkColumnField 2 "city" TYPE_VARCHAR.
Definition field3 : ColumnField := mkColumnField 3 "v1" TYPE_BIGINT.

(** The three-field base schema of scenarios A, B and C. *)
Definition three_fields (ndebug : bool) : @Schema (scenario_env ndebug) :=
  mkSchema (scenario_env ndebug) [field1; field2; field3].

(** The iterator of the scenarios: freshly constructed; after the
    dictionary of scenario B was applied; after column 1 was pruned. *)
Definition scenario_iterator (ndebug : bool)
    : @ChunkIterator (scenario_env ndebug) :=
  @ChunkIterator_new (scenario_env ndebug) (three_fields ndebug).

Definition encoded_iterator (ndebug : bool)
    : @ChunkIterator (scenario_env ndebug) :=
  mkChunkIterator (scenario_env ndebug) (three_fields ndebug)
    (mkSchema (scenario_env ndebug) [field1; cf_to_dict field2; field3])
    (@Schema_empty (scenario_env ndebug)) false 4096.

Definition projected_iterator (ndebug : bool)
    : @ChunkIterator (scenario_env ndebug) :=
  mkChunkIterator (scenario_env ndebug) (three_fields ndebug)
    (@Schema_empty (scenario_env ndebug))
    (mkSchema (scenario_env ndebug) [field2; field3]) true 4096.

(** What an unchecked projection that keeps no column leaves behind. *)
Definition emptied_iterator (ndebug : bool)
    : @ChunkIterator (scenario_env ndebug) :=
  mkChunkIterator (scenario_env ndebug) (three_fields ndebug)
    (@Schema_empty (scenario_env ndebug))
    (@Schema_empty (scenario_env ndebug)) true 4096.

(** A dictionary for column 2, as in scenario B. *)
Definition dict_city (ndebug : bool)
    : gmap ColumnId (@GlobalDict (scenario_env ndebug)) :=
  {[ 2 := ["Berlin"; "Oslo"] ]}.

Definition dict_none (ndebug : bool)
    : gmap ColumnId (@GlobalDict (scenario_env ndebug)) := ∅.

(** A concrete iterator: it hands out the batches of a queue, one per
    fetch, and overrides none of the overridable functions. *)
Definition queue_do_get_next (E : Env)
    (self : @ChunkIterator E * list (@Chunk E)) (chunk : @ChunkPtr E)
    : Outcome (Status * (@ChunkIterator E * list (@Chunk E)) * @ChunkPtr E) :=
  match chunk, self.2 with
  | None, _ => Aborted
  | Some _, [] => Returned (EndOfFile, self, chunk)
  | Some _, batch :: rest => Returned (OK, (self.1, rest), Some batch)
  end.

Definition queue_class (E : Env)
    : @ChunkIteratorClass E (@ChunkIterator E * list (@Chunk E)) :=
  mkChunkIteratorClass fst (λ self, (self.1, [])) None
    (queue_do_get_next E) None None.

(** One batch of two columns and two rows, and a queue iterator about to
    hand it out. *)
Definition batch1 : list (list Z) := [[1; 2]; [10; 20]]%Z.

Definition queue_iterator (ndebug : bool)
    : @ChunkIterator (scenario_env ndebug) * list (@Chunk (scenario_env ndebug)) :=
  (scenario_iterator ndebug, [batch1]).

Definition drained_iterator (ndebug : bool)
    : @ChunkIterator (scenario_env ndebug) * list (@Chunk (scenario_env ndebug)) :=
  (scenario_iterator ndebug, []).

Definition empty_chunk (ndebug : bool) : @ChunkPtr (scenario_env ndebug) :=
  Some [].

Definition no_masks (ndebug : bool) : @SourceMasksPtr (scenario_env ndebug) :=
  Some [].

(** ** Sequences of initialiser calls *)

(** [init_steps it it'] : some sequence of returning calls of
    [init_encoded_schema] and [init_output_schema], in any order and with
    any arguments, leads from [it] to [it']. *)
Inductive init_steps `{Env} : ChunkIterator → ChunkIterator → Prop :=
  | init_steps_done it :
      init_steps it it
  | init_steps_encoded dict_maps it st it1 it2 :
      init_encoded_schema dict_maps it = Returned (st, it1) →
      init_steps it1 it2 →
      init_steps it it2
  | init_steps_output unused it st it1 it2 :
      init_output_schema unused it = Returned (st, it1) →
      init_steps it1 it2 →
      init_steps it it2.

(** A second dictionary for column 2, with other contents, and one that
    also names a column the schema does not have. *)
Definition dict_city_other (ndebug : bool)
    : gmap ColumnId (@GlobalDict (scenario_env ndebug)) :=
  {[ 2 := ["Lima"]; 9 := [] ]}.

(** More states of the scenario iterator: encoded, then column 1 pruned;
    column 1 pruned, then encoded and asked to prune column 2; pruned by
    an id the schema does not have. *)
Definition encoded_projected_iterator (ndebug : bool)
    : @ChunkIterator (scenario_env ndebug) :=
  mkChunkIterator (scenario_env ndebug) (three_fields ndebug)
    (mkSchema (scenario_env ndebug) [field1; cf_to_dict field2; field3])
    (mkSchema (scenario_env ndebug) [cf_to_dict field2; field3]) true 4096.

Definition projected_encoded_iterator (ndebug : bool)
    : @ChunkIterator (scenario_env ndebug) :=
  mkChunkIterator (scenario_env ndebug) (three_fields ndebug)
    (mkSchema (scenario_env ndebug) [field1; cf_to_dict field2; field3])
    (mkSchema (scenario_env ndebug) [field2; field3]) true 4096.

Definition unpruned_iterator (ndebug : bool)
    : @ChunkIterator (scenario_env ndebug) :=
  mkChunkIterator (scenario_env ndebug) (three_fields ndebug)
    (@Schema_empty (scenario_env ndebug))
    (mkSchema (scenario_env ndebug) [field1; field2; field3]) true 4096.

(** An iterator over no column at all. *)
Definition no_fields (ndebug : bool) : @Schema (scenario_env ndebug) :=
  mkSchema (scenario_env ndebug) [].

Definition empty_iterator (ndebug : bool)
    : @ChunkIterator (scenario_env ndebug) :=
  @ChunkIterator_new (scenario_env ndebug) (no_fields ndebug).

(** ** S3InputStream (be/src/io/s3_input_stream.h)

    The header defines the members, their default initialisers and the
    constructor; the member functions are declared only. [S3ClientPtr] is
    [std::shared_ptr<Aws::S3::S3Client>]; the read buffer is a
    [std::unique_ptr<uint8_t[]>], [None] when null. *)
Record S3InputStream (S3ClientPtr : Type) : Type := mkS3InputStream {
  _s3client : S3ClientPtr;
  _bucket : string;
  _object : string;
  _offset : Z;
  _size : Z;
  _read_ahead_size : Z;
  _buffer_start_offset : Z;
  _buffer_data_length : Z;
  _read_buffer : option (list Byte.byte)
}.
Arguments mkS3InputStream {_} _ _ _ _ _ _ _ _ _.
Arguments _s3client {_} _.
Arguments _bucket {_} _.
Arguments _object {_} _.
Arguments _offset {_} _.
Arguments _size {_} _.
Arguments _read_ahead_size {_} _.
Arguments _buffer_start_offset {_} _.
Arguments _buffer_data_length {_} _.
Arguments _read_buffer {_} _.

(** [std::make_unique<uint8_t[]>(n)]: [n] value-initialised bytes. *)
Definition make_unique_bytes (n : Z) : list Byte.byte :=
  replicate (Z.to_nat n) Byte.x00.

(** The constructor: the member initialiser list and the default member
    initialisers first, then the body. *)
Definition S3InputStream_new {S3ClientPtr : Type} (client : S3ClientPtr)
    (bucket object : string) (read_ahead_size : Z)
    : S3InputStream S3ClientPtr :=
  let this := mkS3InputStream client bucket object 0 (-1) (-1) (-1) (-1) None in
  let this := mkS3InputStream (_s3client this) (_bucket this) (_object this)
                (_offset this) (_size this) read_ahead_size
                (_buffer_start_offset this) (_buffer_data_length this)
                (_read_buffer this) in
  if (0 <? _read_ahead_size this)%Z then
    mkS3InputStream (_s3client this) (_bucket this) (_object this)
      (_offset this) (_size this) (_read_ahead_size this)
      (_buffer_start_offset this) (_buffer_data_length this)
      (Some (make_unique_bytes (_read_ahead_size this)))
  else this.

(** * Properties *)

Section schema_views.
Context `{Env}.
Implicit Types (it : ChunkIterator) (s : Schema) (field : Field).
Implicit Types (dict_maps : gmap ColumnId GlobalDict) (unused : gset ColumnId).

(** ** Bookkeeping *)

Lemma Schema_eq s1 s2 : fields s1 = fields s2 → s1 = s2.
Proof. destruct s1, s2; simpl; congruence. Qed.

Lemma num_fields_zero s : (num_fields s =? 0) = true ↔ fields s = [].
Proof.
  unfold num_fields. rewrite N.eqb_eq. destruct (fields s); simpl; [done|].
  split; [lia | done].
Qed.

Lemma num_fields_pos s : (0 <? num_fields s) = true ↔ fields s ≠ [].
Proof.
  unfold num_fields. rewrite N.ltb_lt. destruct (fields s); simpl; [|split].
  - split; [lia | done].
  - done.
  - lia.
Qed.

Lemma map_count_test {V} (m : gmap ColumnId V) k :
  negb (map_count m k =? 0) = bool_decide (is_Some (m !! k)).
Proof.
  unfold map_count. case_bool_decide as Hk.
  - by destruct Hk as [v ->].
  - destruct (m !! k) as [v|]; [|done]. exfalso. eauto.
Qed.

Lemma set_count_test unused k :
  (set_count unused k =? 0) = bool_decide (k ∉ unused).
Proof.
  unfold set_count. case_bool_decide as Hk.
  - by rewrite decide_False.
  - rewrite decide_True; [done|]. by destruct (decide (k ∈ unused)).
Qed.

Lemma encode_step_form dict_maps it field :
  encode_step dict_maps it field =
  set_encoded_schema it
    (Schema_append (_encoded_schema it) (encoded_form dict_maps field)).
Proof.
  unfold encode_step, encoded_form. cbv zeta. rewrite map_count_test.
  destruct (decide (is_Some (dict_maps !! Field_id field))) as [Hs|Hn].
  - by rewrite bool_decide_eq_true_2.
  - by rewrite bool_decide_eq_false_2.
Qed.

(** The loop of [init_encoded_schema] pushes the encoded form of every
    field it visits, in order, behind what the schema already holds. *)
Lemma foldl_encode_step dict_maps l it :
  foldl (encode_step dict_maps) it l =
  set_encoded_schema it
    (mkSchema _ (fields (_encoded_schema it) ++ (encoded_form dict_maps <$> l))).
Proof.
  revert it. induction l as [|field l IH]; intros it.
  - simpl. rewrite app_nil_r. by destruct it as [? [?] ? ? ?].
  - simpl. rewrite IH, encode_step_form. unfold set_encoded_schema. simpl.
    by rewrite <- app_assoc.
Qed.

Lemma output_step_form unused it field :
  output_step unused it field =
  set_output_schema it
    (mkSchema _ (fields (_output_schema it) ++ kept_fields unused [field])).
Proof.
  unfold output_step, kept_fields. cbv zeta. rewrite set_count_test.
  unfold filter; simpl.
  destruct (decide (Field_id field ∉ unused)) as [Hk|Hd].
  - by rewrite bool_decide_eq_true_2.
  - rewrite bool_decide_eq_false_2 by done. rewrite app_nil_r.
    by destruct it as [? ? [?] ? ?].
Qed.

(** The loop of [init_output_schema] pushes the kept fields, in order. *)
Lemma foldl_output_step unused l it :
  foldl (output_step unused) it l =
  set_output_schema it
    (mkSchema _ (fields (_output_schema it) ++ kept_fields unused l)).
Proof.
  revert it. induction l as [|field l IH]; intros it.
  - simpl. unfold kept_fields. simpl. rewrite app_nil_r.
    by destruct it as [? ? [?] ? ?].
  - simpl. rewrite IH, output_step_form. unfold set_output_schema. simpl.
    rewrite <- app_assoc. do 3 f_equal.
    unfold kept_fields. by rewrite (filter_app _ [field] l).
Qed.

(** What a call of [init_encoded_schema] does, in any state. *)
Lemma init_encoded_schema_eq dict_maps it :
  init_encoded_schema dict_maps it =
  Returned (OK, set_encoded_schema it
    (mkSchema _ (fields (_encoded_schema it) ++
                 (encoded_form dict_maps <$> fields (_schema it))))).
Proof.
  unfold init_encoded_schema, Schema_reserve, schema. cbv zeta.
  by rewrite foldl_encode_step.
Qed.

(** What a first call of [init_output_schema] computes before its check. *)
Lemma init_output_schema_eq unused it :
  _is_init_output_schema it = false →
  init_output_schema unused it =
  (let out := mkSchema _ (fields (_output_schema it) ++
                          kept_fields unused (fields (encoded_schema it))) in
   _ ← DCHECK (0 <? num_fields out);
   Returned (OK, set_is_init_output_schema (set_output_schema it out) true)).
Proof.
  intros Hinit. unfold init_output_schema. rewrite Hinit. cbv zeta.
  by rewrite foldl_output_step.
Qed.

Lemma init_output_schema_again unused it :
  _is_init_output_schema it = true →
  init_output_schema unused it = Returned (OK, it).
Proof. intros Hinit. unfold init_output_schema. by rewrite Hinit. Qed.

(** Until the projection is initialised the output schema is empty. *)
Lemma reachable_output_empty it :
  reachable it → _is_init_output_schema it = false →
  fields (_output_schema it) = [].
Proof.
  induction 1 as [sch|sch cs|dict_maps it st it' Hr IH Hcall
                 |unused it st it' Hr IH Hcall]; intros Hinit.
  - done.
  - done.
  - rewrite init_encoded_schema_eq in Hcall. injection Hcall as _ <-.
    apply IH, Hinit.
  - destruct (_is_init_output_schema it) eqn:Hflag.
    + rewrite init_output_schema_again in Hcall by done.
      injection Hcall as _ <-. congruence.
    + rewrite init_output_schema_eq in Hcall by done. cbv zeta in Hcall.
      destruct (DCHECK _); simpl in Hcall; [|done].
      injection Hcall as _ <-. done.
Qed.

Lemma kept_fields_nil unused l :
  kept_fields unused l = [] ↔ ∀ field, field ∈ l → Field_id field ∈ unused.
Proof.
  unfold kept_fields. split.
  - intros Hnil field Hin. destruct (decide (Field_id field ∈ unused)); [done|].
    assert (field ∈ filter (λ field, Field_id field ∉ unused) l) as Hf
      by (apply list_elem_of_filter; done).
    rewrite Hnil in Hf. by apply elem_of_nil in Hf.
  - intros Hall. induction l as [|field l IH]; [done|].
    rewrite filter_cons. destruct (decide _) as [Hout|_].
    + exfalso. apply Hout, Hall. left.
    + apply IH. intros f Hf. apply Hall. by right.
Qed.

End schema_views.

Section schema_claims.
Context `{Env}.
Implicit Types (it : ChunkIterator) (s : Schema) (field : Field).
Implicit Types (dict_maps : gmap ColumnId GlobalDict) (unused : gset ColumnId).

(** The accessor [encoded_schema] after the private schema was set to the
    image of the base schema under a map on fields. *)
Lemma encoded_schema_of_image it (g : Field → Field) :
  fields (encoded_schema
            (set_encoded_schema it (mkSchema _ (g <$> fields (_schema it))))) =
  g <$> fields (_schema it).
Proof.
  unfold encoded_schema. simpl.
  destruct (num_fields _ =? 0) eqn:Hz; [|done].
  apply num_fields_zero in Hz. simpl in Hz. rewrite Hz.
  by apply fmap_nil_inv in Hz.
Qed.

Lemma encoded_form_empty field : encoded_form (∅ : gmap _ _) field = field.
Proof.
  unfold encoded_form. rewrite lookup_empty.
  destruct (decide _) as [[v Hv]|_]; [discriminate | done].
Qed.

(** C1. A call of [init_encoded_schema] on an iterator whose encoded schema
    has not been filled yet returns OK and leaves an encoded schema with
    as many fields as the base schema, in the same order: position by
    position, a field whose id has an entry in the dictionary map is
    replaced by its dictionary form and any other field is the base field
    itself. With the empty map the encoded schema is the base schema. *)
Theorem init_encoded_schema_spec dict_maps it :
  fields (_encoded_schema it) = [] →
  ∃ it', init_encoded_schema dict_maps it = Returned (OK, it') ∧
    schema it' = schema it ∧
    fields (encoded_schema it') = encoded_form dict_maps <$> fields (schema it) ∧
    num_fields (encoded_schema it') = num_fields (schema it) ∧
    (∀ (i : nat) field, fields (schema it) !! i = Some field →
       fields (encoded_schema it') !! i =
       Some (if decide (is_Some (dict_maps !! Field_id field))
             then convert_to_dict_field field else field)) ∧
    (dict_maps = ∅ → encoded_schema it' = schema it).
Proof.
  intros Hfresh. rewrite init_encoded_schema_eq, Hfresh. simpl.
  eexists. split; [reflexivity|].
  pose proof (encoded_schema_of_image it (encoded_form dict_maps)) as Himg.
  unfold schema. split; [done|]. split; [exact Himg|].
  split; [|split].
  - unfold num_fields. by rewrite Himg, length_fmap.
  - intros i field Hi. rewrite Himg, list_lookup_fmap, Hi. done.
  - intros ->. apply Schema_eq. rewrite Himg.
    rewrite <- (list_fmap_id (fields (_schema it))) at 2.
    apply list_fmap_ext. intros _ field _. apply encoded_form_empty.
Qed.

(** C9. Nothing stops a second call of [init_encoded_schema]: on an
    iterator whose encoded schema has not been filled yet, two calls in a
    row, with any two dictionary maps, both return OK; the second pushes
    the encoded forms of the base fields behind those of the first, so the
    encoded schema ends with twice as many fields as the base schema. *)
Theorem init_encoded_schema_twice dict_maps1 dict_maps2 it :
  fields (_encoded_schema it) = [] →
  ∃ it1 it2,
    init_encoded_schema dict_maps1 it = Returned (OK, it1) ∧
    init_encoded_schema dict_maps2 it1 = Returned (OK, it2) ∧
    fields (_encoded_schema it2) =
      (encoded_form dict_maps1 <$> fields (schema it)) ++
      (encoded_form dict_maps2 <$> fields (schema it)) ∧
    num_fields (_encoded_schema it2) = 2 * num_fields (schema it) ∧
    num_fields (encoded_schema it2) = 2 * num_fields (schema it).
Proof.
  intros Hfresh. do 2 eexists.
  split; [apply init_encoded_schema_eq|].
  split; [apply init_encoded_schema_eq|].
  simpl. rewrite Hfresh. simpl. unfold schema.
  assert (num_fields
            (mkSchema _ ((encoded_form dict_maps1 <$> fields (_schema it)) ++
                         (encoded_form dict_maps2 <$> fields (_schema it)))) =
          2 * num_fields (_schema it)) as Hlen.
  { unfold num_fields. simpl. rewrite length_app, !length_fmap. lia. }
  split; [done|]. split; [exact Hlen|].
  unfold encoded_schema. simpl.
  destruct (num_fields _ =? 0) eqn:Hz; [|exact Hlen].
  apply N.eqb_eq in Hz. rewrite Hlen in Hz. lia.
Qed.

Lemma init_output_schema_sets_flag unused it st it' :
  init_output_schema unused it = Returned (st, it') →
  st = OK ∧ _is_init_output_schema it' = true.
Proof.
  intros Hcall. destruct (_is_init_output_schema it) eqn:Hflag.
  - rewrite init_output_schema_again in Hcall by done.
    injection Hcall as <- <-. done.
  - rewrite init_output_schema_eq in Hcall by done. cbv zeta in Hcall.
    destruct (DCHECK _); simpl in Hcall; [|done].
    injection Hcall as <- <-. done.
Qed.

Lemma init_output_schema_each_again calls it :
  _is_init_output_schema it = true →
  init_output_schema_each calls it =
  Returned (replicate (length calls) OK, it).
Proof.
  intros Hflag. induction calls as [|unused calls IH]; [done|].
  simpl. rewrite init_output_schema_again by done. simpl.
  rewrite IH. done.
Qed.

(** C2. [init_output_schema] is idempotent: once a call has returned, any
    later call, whatever its argument, returns OK and hands back the very
    same iterator state, output schema included; the same holds for any
    number of later calls in a row. *)
Theorem init_output_schema_idempotent unused1 it st1 it1 :
  init_output_schema unused1 it = Returned (st1, it1) →
  (∀ unused2, init_output_schema unused2 it1 = Returned (OK, it1)) ∧
  (∀ calls, init_output_schema_each calls it1 =
            Returned (replicate (length calls) OK, it1)) ∧
  output_schema it1 = _output_schema it1.
Proof.
  intros Hfirst. apply init_output_schema_sets_flag in Hfirst as [_ Hflag].
  split; [|split].
  - intros unused2. by apply init_output_schema_again.
  - intros calls. by apply init_output_schema_each_again.
  - unfold output_schema. by rewrite Hflag.
Qed.

(** C3. The first call of [init_output_schema] on an iterator built by the
    constructors and initialisers, provided it gets past its check (the
    build is NDEBUG or some field is kept), returns OK and leaves as output
    schema exactly the fields of the encoded schema whose id is not in the
    unused set, in the order the encoded schema has them. *)
Theorem init_output_schema_first_call unused it :
  reachable it →
  _is_init_output_schema it = false →
  NDEBUG = true ∨ kept_fields unused (fields (encoded_schema it)) ≠ [] →
  ∃ it', init_output_schema unused it = Returned (OK, it') ∧
    fields (output_schema it') =
      filter (λ field, Field_id field ∉ unused) (fields (encoded_schema it)) ∧
    (∀ field, field ∈ fields (output_schema it') ↔
              field ∈ fields (encoded_schema it) ∧ Field_id field ∉ unused) ∧
    fields (output_schema it') `sublist_of` fields (encoded_schema it) ∧
    _is_init_output_schema it' = true ∧
    schema it' = schema it ∧ encoded_schema it' = encoded_schema it.
Proof.
  intros Hreach Hflag Hpass.
  rewrite init_output_schema_eq by done. cbv zeta.
  rewrite (reachable_output_empty it Hreach Hflag). simpl.
  assert (DCHECK (0 <? num_fields
            (mkSchema _ (kept_fields unused (fields (encoded_schema it))))) =
          Returned tt) as ->.
  { unfold DCHECK. destruct NDEBUG; [done|].
    destruct Hpass as [|Hkept]; [done|].
    by rewrite (proj2 (num_fields_pos (mkSchema _ _)) Hkept). }
  simpl. eexists. split; [reflexivity|].
  unfold output_schema, kept_fields. simpl.
  split; [done|]. split; [|split; [|done]].
  - intros field. rewrite list_elem_of_filter. tauto.
  - apply sublist_filter.
Qed.

(** C4. [output_schema] falls back in three tiers: the output schema once
    the projection is initialised; else the encoded schema when that one
    has a field; else the base schema. *)
Theorem output_schema_fallback it :
  (_is_init_output_schema it = true → output_schema it = _output_schema it) ∧
  (_is_init_output_schema it = false → output_schema it = encoded_schema it) ∧
  (_is_init_output_schema it = false → num_fields (_encoded_schema it) ≠ 0 →
     output_schema it = _encoded_schema it) ∧
  (_is_init_output_schema it = false → num_fields (_encoded_schema it) = 0 →
     output_schema it = schema it) ∧
  (num_fields (_encoded_schema it) ≠ 0 → encoded_schema it = _encoded_schema it) ∧
  (num_fields (_encoded_schema it) = 0 → encoded_schema it = schema it).
Proof.
  unfold output_schema, encoded_schema, schema.
  destruct (_is_init_output_schema it);
    destruct (N.eqb_spec (num_fields (_encoded_schema it)) 0);
    repeat split; intros; congruence.
Qed.

End schema_claims.

Section projection_check.
Context `{Env}.
Implicit Types (it : ChunkIterator) (field : Field).
Implicit Types (dict_maps : gmap ColumnId GlobalDict) (unused : gset ColumnId).

(** When [init_output_schema] dies: exactly when the build keeps [DCHECK],
    the projection is not initialised yet, and the loop leaves the output
    schema without a field. *)
Lemma init_output_schema_aborts unused it :
  init_output_schema unused it = Aborted ↔
  NDEBUG = false ∧ _is_init_output_schema it = false ∧
  fields (_output_schema it) = [] ∧
  kept_fields unused (fields (encoded_schema it)) = [].
Proof.
  destruct (_is_init_output_schema it) eqn:Hflag.
  - rewrite init_output_schema_again by done.
    split; [done | by intros (_ & ? & _)].
  - rewrite init_output_schema_eq by done. cbv zeta. unfold DCHECK.
    destruct NDEBUG; [split; [done | by intros (? & _)]|].
    destruct (0 <? num_fields _) eqn:Hpos; simpl.
    + apply num_fields_pos in Hpos. simpl in Hpos.
      split; [done|]. intros (_ & _ & Hout & Hkept).
      rewrite Hout, Hkept in Hpos. done.
    + split; [|done]. intros _.
      apply N.ltb_ge in Hpos. unfold num_fields in Hpos. simpl in Hpos.
      assert (length (fields (_output_schema it) ++
                      kept_fields unused (fields (encoded_schema it))) = 0%nat)
        as Hnil by lia.
      apply length_zero_iff_nil, app_eq_nil in Hnil as [-> ->]. done.
Qed.

Lemma init_output_schema_outcome unused it :
  init_output_schema unused it = Aborted ∨
  ∃ it', init_output_schema unused it = Returned (OK, it').
Proof.
  destruct (init_output_schema unused it) as [[st it']|] eqn:Hcall; [|by left].
  right. apply init_output_schema_sets_flag in Hcall as Hst.
  destruct Hst as [-> _]. eauto.
Qed.

(** C7, amended. In a build that keeps [DCHECK], the first call of
    [init_output_schema] on an iterator built by the constructors and
    initialisers dies on its check whenever the unused ids name every
    field of the encoded schema. *)
Theorem init_output_schema_no_field_left unused it :
  NDEBUG = false →
  reachable it →
  _is_init_output_schema it = false →
  covers unused (encoded_schema it) →
  init_output_schema unused it = Aborted.
Proof.
  intros Hdebug Hreach Hflag Hcov. apply init_output_schema_aborts.
  split; [done|]. split; [done|].
  split; [by apply reachable_output_empty|].
  by apply kept_fields_nil.
Qed.

(** C10, amended. Neither initialiser has a branch that returns an error.
    [init_encoded_schema] returns OK in every state and for every map.
    [init_output_schema] returns OK whenever it returns, and it returns
    unless its check fires: in an NDEBUG build it always returns OK, and in
    any build it returns OK once the projection is initialised or as soon
    as one field is kept. It dies, returning no status, exactly when the
    build keeps [DCHECK], the projection is not initialised and the loop
    leaves the output schema without a field. *)
Theorem schema_init_status dict_maps unused it :
  (∃ it', init_encoded_schema dict_maps it = Returned (OK, it')) ∧
  (∀ st it', init_output_schema unused it = Returned (st, it') → st = OK) ∧
  (init_output_schema unused it = Aborted ∨
   ∃ it', init_output_schema unused it = Returned (OK, it')) ∧
  (NDEBUG = true ∨ _is_init_output_schema it = true ∨
   kept_fields unused (fields (encoded_schema it)) ≠ [] →
   ∃ it', init_output_schema unused it = Returned (OK, it')) ∧
  (init_output_schema unused it = Aborted ↔
   NDEBUG = false ∧ _is_init_output_schema it = false ∧
   fields (_output_schema it) = [] ∧
   kept_fields unused (fields (encoded_schema it)) = []).
Proof.
  split; [|split; [|split; [|split]]]; [| | | |apply init_output_schema_aborts].
  - rewrite init_encoded_schema_eq. eauto.
  - intros st it' Hcall. by apply init_output_schema_sets_flag in Hcall as [-> _].
  - apply init_output_schema_outcome.
  - intros Hok. destruct (init_output_schema_outcome unused it) as [Hdie|Hret];
      [|done].
    apply init_output_schema_aborts in Hdie as (Hdebug & Hflag & _ & Hkept).
    destruct Hok as [Hnd|[Hinit|Hne]]; congruence.
Qed.

End projection_check.

Section fetching.
Context `{Env} {Self : Type} (cls : ChunkIteratorClass Self).
Implicit Types (self : Self) (chunk : ChunkPtr).
Implicit Types (rowid : RowidPtr) (source_masks : SourceMasksPtr).

(** C5. The row-id variant of the fetch, in an iterator that does not
    override it, returns NotSupported for every iterator state, chunk
    pointer and row-id buffer, and touches none of them. *)
Theorem do_get_next_rowid_not_supported self chunk rowid :
  vt_do_get_next_rowid cls = None →
  do_get_next_rowid cls self chunk rowid =
    Returned (NotSupported rowid_not_supported, self, chunk, rowid) ∧
  get_next_rowid cls self chunk rowid =
    (_ ← DCHECK_CHUNK chunk;
     Returned (NotSupported rowid_not_supported, self, chunk, rowid)).
Proof.
  intros Hdefault. unfold get_next_rowid, do_get_next_rowid.
  rewrite Hdefault. done.
Qed.

(** The public row-id fetch of such an iterator, when the debug check of
    the caller's chunk does not fire. *)
Lemma get_next_rowid_not_supported self chunk rowid :
  vt_do_get_next_rowid cls = None →
  NDEBUG = true ∨ chunk_check chunk = true →
  get_next_rowid cls self chunk rowid =
    Returned (NotSupported rowid_not_supported, self, chunk, rowid).
Proof.
  intros Hdefault Hpass. unfold get_next_rowid, do_get_next_rowid.
  rewrite Hdefault. simpl. unfold DCHECK_CHUNK, DCHECK.
  destruct NDEBUG; [done|]. destruct Hpass as [Hnd|Hck]; [done|].
  by rewrite Hck.
Qed.

(** C6. The masked variant of the fetch, in an iterator that does not
    override it: with a null mask buffer it is the plain fetch (same
    status, same iterator state, same chunk, buffer still null), both as
    the virtual hook and as the public function; with a mask buffer it
    returns NotSupported and leaves state, chunk and buffer as they were. *)
Theorem do_get_next_masks_default_spec self chunk :
  vt_do_get_next_masks cls = None →
  do_get_next_masks cls self chunk None =
    ((λ r, (r, None)) <$> do_get_next cls self chunk) ∧
  get_next_masks cls self chunk None =
    ((λ r, (r, None)) <$> get_next cls self chunk) ∧
  (∀ masks, do_get_next_masks cls self chunk (Some masks) =
     Returned (NotSupported sources_not_supported, self, chunk, Some masks)) ∧
  (∀ masks, get_next_masks cls self chunk (Some masks) =
     (_ ← DCHECK_CHUNK chunk;
      Returned (NotSupported sources_not_supported, self, chunk, Some masks))).
Proof.
  intros Hdefault.
  unfold get_next_masks, get_next, do_get_next_masks, do_get_next.
  rewrite Hdefault. simpl. repeat split.
  - destruct (vt_do_get_next cls self chunk) as [[[st self'] chunk']|]; done.
  - destruct (vt_do_get_next cls self chunk) as [[[st self'] chunk']|];
      [|done].
    simpl. destruct (DCHECK_CHUNK chunk') as [u|]; done.
Qed.

(** C8. The iterator made by [timed_chunk_iterator] is transparent: its
    [schema], [chunk_size] and [merged_rows] are those of the wrapped
    iterator, its [close] closes the wrapped iterator, and each of its
    three fetches gives the status, chunk, row ids and masks of the same
    fetch of the wrapped iterator, which moves as it would unwrapped; the
    one thing added is the elapsed time on the counter. *)
Theorem timed_chunk_iterator_transparent (elapsed : Self → N)
    (iter : Self) (counter : N) chunk rowid source_masks :
  let timed := TimedChunkIterator_class cls elapsed in
  let self := timed_chunk_iterator iter counter in
  let tick := λ iter', mkTimedChunkIterator iter' (counter + elapsed iter) in
  schema (base timed self) = schema (base cls iter) ∧
  chunk_size (base timed self) = chunk_size (base cls iter) ∧
  merged_rows timed self = merged_rows cls iter ∧
  close timed self = mkTimedChunkIterator (close cls iter) counter ∧
  get_next timed self chunk =
    ((λ '(st, iter', chunk'), (st, tick iter', chunk')) <$>
     get_next cls iter chunk) ∧
  get_next_rowid timed self chunk rowid =
    ((λ '(st, iter', chunk', rowid'), (st, tick iter', chunk', rowid')) <$>
     get_next_rowid cls iter chunk rowid) ∧
  get_next_masks timed self chunk source_masks =
    ((λ '(st, iter', chunk', masks'), (st, tick iter', chunk', masks')) <$>
     get_next_masks cls iter chunk source_masks).
Proof.
  cbv zeta. repeat split.
  - unfold get_next at 1. simpl. unfold timed_do_get_next, get_next. simpl.
    destruct (do_get_next cls iter chunk) as [[[st iter'] chunk']|]; [|done].
    simpl. destruct (DCHECK_CHUNK chunk') as [u|] eqn:Hc; simpl; by rewrite ?Hc.
  - unfold get_next_rowid at 1.
    change (do_get_next_rowid (TimedChunkIterator_class cls elapsed))
      with (timed_do_get_next_rowid cls elapsed).
    unfold timed_do_get_next_rowid, get_next_rowid. simpl.
    destruct (do_get_next_rowid cls iter chunk rowid)
      as [[[[st iter'] chunk'] rowid']|]; [|done].
    simpl. destruct (DCHECK_CHUNK chunk') as [u|] eqn:Hc; simpl; by rewrite ?Hc.
  - unfold get_next_masks at 1.
    change (do_get_next_masks (TimedChunkIterator_class cls elapsed))
      with (timed_do_get_next_masks cls elapsed).
    unfold timed_do_get_next_masks, get_next_masks. simpl.
    destruct (do_get_next_masks cls iter chunk source_masks)
      as [[[[st iter'] chunk'] masks']|]; [|done].
    simpl. destruct (DCHECK_CHUNK chunk') as [u|] eqn:Hc; simpl; by rewrite ?Hc.
Qed.

End fetching.

(** * The scenarios of the specification, on concrete collaborators *)

Section schema_scenarios.

(** Scenarios A and B: a three-field schema under the empty map and under
    a dictionary for column 2. *)
Lemma init_encoded_schema_scenario_B :
  (∃ it', init_encoded_schema (dict_city false) (scenario_iterator false) =
            Returned (OK, it') ∧
          fields (encoded_schema it') = [field1; cf_to_dict field2; field3]) ∧
  (∃ it', init_encoded_schema (dict_none false) (scenario_iterator false) =
            Returned (OK, it') ∧
          encoded_schema it' = three_fields false).
Proof.
  split.
  - destruct (init_encoded_schema_spec (dict_city false) (scenario_iterator false)
                eq_refl) as (it' & Hcall & _ & Hfields & _).
    exists it'. split; [exact Hcall|]. rewrite Hfields. reflexivity.
  - destruct (init_encoded_schema_spec (dict_none false) (scenario_iterator false)
                eq_refl) as (it' & Hcall & _ & _ & _ & _ & Hempty).
    exists it'. split; [exact Hcall|]. exact (Hempty eq_refl).
Defined.

(** Two calls in a row, the second with the empty map: six fields. *)
Lemma init_encoded_schema_twice_scenario :
  ∃ it1 it2,
    init_encoded_schema (dict_city false) (scenario_iterator false) =
      Returned (OK, it1) ∧
    init_encoded_schema (dict_none false) it1 = Returned (OK, it2) ∧
    fields (_encoded_schema it2) =
      [field1; cf_to_dict field2; field3; field1; field2; field3] ∧
    num_fields (encoded_schema it2) = 6.
Proof.
  destruct (init_encoded_schema_twice (dict_city false) (dict_none false) (scenario_iterator false)
              eq_refl) as (it1 & it2 & Hcall1 & Hcall2 & Hfields & _ & Hnum).
  exists it1, it2. split; [exact Hcall1|]. split; [exact Hcall2|].
  split; [rewrite Hfields; reflexivity | rewrite Hnum; reflexivity].
Defined.

(** How the scenario iterators come about. *)
Lemma scenario_first_projection :
  init_output_schema {[1]} (scenario_iterator false) =
  Returned (OK, projected_iterator false).
Proof. vm_compute. reflexivity. Qed.

Lemma scenario_encoded :
  init_encoded_schema (dict_city false) (scenario_iterator false) =
  Returned (OK, encoded_iterator false).
Proof. vm_compute. reflexivity. Qed.

Lemma reachable_encoded_iterator : reachable (encoded_iterator false).
Proof.
  eapply reachable_init_encoded_schema;
    [apply (reachable_new (three_fields false)) | apply scenario_encoded].
Qed.

Lemma reachable_projected_iterator : reachable (projected_iterator false).
Proof.
  eapply reachable_init_output_schema;
    [apply (reachable_new (three_fields false))
    | apply scenario_first_projection].
Qed.

(** A second call that names other columns changes nothing. *)
Lemma init_output_schema_idempotent_scenario :
  init_output_schema {[2; 3]} (projected_iterator false) =
    Returned (OK, projected_iterator false) ∧
  init_output_schema_each [{[2]}; ∅; {[1; 2; 3]}] (projected_iterator false) =
    Returned ([OK; OK; OK], projected_iterator false) ∧
  fields (output_schema (projected_iterator false)) = [field2; field3].
Proof.
  destruct (init_output_schema_idempotent {[1]} (scenario_iterator false) OK
              (projected_iterator false) scenario_first_projection)
    as (Hagain & Heach & Hout).
  split; [exact (Hagain {[2; 3]})|].
  split; [exact (Heach [{[2]}; ∅; {[1; 2; 3]}])|].
  rewrite Hout. reflexivity.
Defined.

(** Scenario C: pruning column 1 of the encoded three-field schema. *)
Lemma init_output_schema_scenario_C :
  ∃ it', init_output_schema {[1]} (encoded_iterator false) =
           Returned (OK, it') ∧
         fields (output_schema it') = [cf_to_dict field2; field3].
Proof.
  assert (@NDEBUG (scenario_env false) = true ∨
          kept_fields {[1]} (fields (encoded_schema (encoded_iterator false)))
          ≠ []) as Hpass.
  { right. vm_compute. discriminate. }
  destruct (init_output_schema_first_call {[1]} (encoded_iterator false)
              reachable_encoded_iterator eq_refl Hpass)
    as (it' & Hcall & Hfields & _).
  exists it'. split; [exact Hcall|]. rewrite Hfields. vm_compute. reflexivity.
Defined.

(** The three tiers on the three scenario iterators. *)
Lemma output_schema_fallback_scenario :
  fields (output_schema (projected_iterator false)) = [field2; field3] ∧
  fields (output_schema (encoded_iterator false)) =
    [field1; cf_to_dict field2; field3] ∧
  fields (output_schema (scenario_iterator false)) = [field1; field2; field3].
Proof.
  destruct (output_schema_fallback (projected_iterator false))
    as (Hout & _).
  destruct (output_schema_fallback (encoded_iterator false))
    as (_ & _ & Henc & _).
  destruct (output_schema_fallback (scenario_iterator false))
    as (_ & _ & _ & Hbase & _).
  rewrite (Hout eq_refl).
  rewrite (Henc eq_refl) by (vm_compute; discriminate).
  rewrite (Hbase eq_refl eq_refl).
  repeat split.
Defined.

Lemma covers_all_columns :
  covers {[1; 2; 3]} (encoded_schema (scenario_iterator false)).
Proof.
  unfold covers.
  apply (proj1 (kept_fields_nil {[1; 2; 3]}
                  (fields (encoded_schema (scenario_iterator false))))).
  vm_compute. reflexivity.
Qed.

(** Pruning all three columns of a fresh iterator, DCHECK kept. *)
Lemma init_output_schema_no_field_left_scenario :
  init_output_schema {[1; 2; 3]} (scenario_iterator false) = Aborted.
Proof.
  apply (init_output_schema_no_field_left {[1; 2; 3]} (scenario_iterator false)).
  - reflexivity.
  - apply (reachable_new (three_fields false)).
  - reflexivity.
  - exact covers_all_columns.
Defined.

(** With DCHECK kept, a projection that keeps no column does not return a
    status at all. *)
Lemma init_output_schema_does_not_return :
  ¬ ∃ it', init_output_schema {[1; 2; 3]} (scenario_iterator false) =
           Returned (OK, it').
Proof. intros [it' Hcall]. vm_compute in Hcall. discriminate. Qed.

End schema_scenarios.

Section projection_check_scenarios.

(** With DCHECK compiled out, a projection that keeps no column returns OK
    and an empty output schema; and with DCHECK kept, a call on an
    initialised projection returns OK whatever it is asked to prune. *)
Lemma init_output_schema_unchecked :
  (covers {[1; 2; 3]} (encoded_schema (scenario_iterator true)) ∧
   reachable (scenario_iterator true) ∧
   init_output_schema {[1; 2; 3]} (scenario_iterator true) =
     Returned (OK, emptied_iterator true) ∧
   fields (output_schema (emptied_iterator true)) = []) ∧
  (covers {[1; 2; 3]} (encoded_schema (projected_iterator false)) ∧
   reachable (projected_iterator false) ∧
   init_output_schema {[1; 2; 3]} (projected_iterator false) =
     Returned (OK, projected_iterator false)).
Proof.
  split; (split; [|split]).
  - unfold covers.
    apply (proj1 (kept_fields_nil {[1; 2; 3]}
                    (fields (encoded_schema (scenario_iterator true))))).
    vm_compute. reflexivity.
  - apply (reachable_new (three_fields true)).
  - split; vm_compute; reflexivity.
  - unfold covers.
    apply (proj1 (kept_fields_nil {[1; 2; 3]}
                    (fields (encoded_schema (projected_iterator false))))).
    vm_compute. reflexivity.
  - apply reachable_projected_iterator.
  - vm_compute. reflexivity.
Qed.

(** Both initialisers return OK: in an NDEBUG build even when no column
    is kept, and with DCHECK kept when a column is. *)
Lemma schema_init_status_scenario :
  (∃ it', init_encoded_schema (dict_city true) (scenario_iterator true) =
          Returned (OK, it')) ∧
  (∃ it', init_output_schema {[1; 2; 3]} (scenario_iterator true) =
          Returned (OK, it')) ∧
  (∃ it', init_output_schema {[1]} (scenario_iterator false) =
          Returned (OK, it')).
Proof.
  destruct (schema_init_status (dict_city true) {[1; 2; 3]}
              (scenario_iterator true)) as (Henc & _ & _ & Hout & _).
  destruct (schema_init_status (dict_city false) {[1]}
              (scenario_iterator false)) as (_ & _ & _ & Hkept & _).
  split; [exact Henc|]. split.
  - apply Hout. left. reflexivity.
  - apply Hkept. right. right. vm_compute. discriminate.
Defined.

End projection_check_scenarios.

Section fetch_scenarios.

(** The queue iterator keeps the default row-id and masked variants. *)
Lemma do_get_next_rowid_not_supported_scenario :
  do_get_next_rowid (queue_class (scenario_env false)) (queue_iterator false)
    (empty_chunk false) (Some []) =
    Returned (NotSupported rowid_not_supported, queue_iterator false,
              empty_chunk false, Some []) ∧
  get_next_rowid (queue_class (scenario_env false)) (queue_iterator false)
    (empty_chunk false) (Some []) =
    Returned (NotSupported rowid_not_supported, queue_iterator false,
              empty_chunk false, Some []).
Proof.
  destruct (do_get_next_rowid_not_supported (queue_class (scenario_env false))
              (queue_iterator false) (empty_chunk false) (Some []) eq_refl)
    as [Hhook Hpublic].
  split; [exact Hhook|]. rewrite Hpublic. reflexivity.
Defined.

Lemma do_get_next_masks_default_scenario :
  get_next_masks (queue_class (scenario_env false)) (queue_iterator false)
    (empty_chunk false) None =
    Returned (OK, drained_iterator false, Some batch1, None) ∧
  get_next (queue_class (scenario_env false)) (queue_iterator false)
    (empty_chunk false) =
    Returned (OK, drained_iterator false, Some batch1) ∧
  get_next_masks (queue_class (scenario_env false)) (queue_iterator false)
    (empty_chunk false) (no_masks false) =
    Returned (NotSupported sources_not_supported, queue_iterator false,
              empty_chunk false, no_masks false).
Proof.
  destruct (do_get_next_masks_default_spec (queue_class (scenario_env false))
              (queue_iterator false) (empty_chunk false) eq_refl)
    as (_ & Hnull & _ & Hmasks).
  split; [rewrite Hnull; reflexivity|].
  split; [reflexivity|].
  unfold no_masks. rewrite (Hmasks []). reflexivity.
Defined.

(** A timed queue iterator whose fetches are measured at 7 units each. *)
Lemma timed_chunk_iterator_scenario :
  get_next
    (TimedChunkIterator_class (queue_class (scenario_env false)) (λ _, 7))
    (timed_chunk_iterator (queue_iterator false) 100) (empty_chunk false) =
    Returned (OK, mkTimedChunkIterator (drained_iterator false) 107,
              Some batch1) ∧
  get_next_rowid
    (TimedChunkIterator_class (queue_class (scenario_env false)) (λ _, 7))
    (timed_chunk_iterator (queue_iterator false) 100) (empty_chunk false)
    (Some []) =
    Returned (NotSupported rowid_not_supported,
              mkTimedChunkIterator (queue_iterator false) 107,
              empty_chunk false, Some []).
Proof.
  destruct (timed_chunk_iterator_transparent
              (queue_class (scenario_env false)) (λ _, 7)
              (queue_iterator false) 100 (empty_chunk false) (Some [])
              (no_masks false))
    as (_ & _ & _ & _ & Hplain & Hrowid & _).
  split; [rewrite Hplain; reflexivity | rewrite Hrowid; reflexivity].
Defined.

End fetch_scenarios.

(** * Further properties of the schema views *)

Section schema_invariants.
Context `{Env}.
Implicit Types (it : ChunkIterator) (s : Schema) (field : Field).
Implicit Types (dict_maps : gmap ColumnId GlobalDict) (unused : gset ColumnId).

(** The two ways a call of [init_output_schema] returns. *)
Lemma init_output_schema_returned unused it st it' :
  init_output_schema unused it = Returned (st, it') →
  (_is_init_output_schema it = true ∧ it' = it) ∨
  (_is_init_output_schema it = false ∧
   it' = set_is_init_output_schema
           (set_output_schema it
              (mkSchema _ (fields (_output_schema it) ++
                           kept_fields unused (fields (encoded_schema it)))))
           true ∧
   (NDEBUG = false → fields (_output_schema it') ≠ [])).
Proof.
  intros Hcall. destruct (_is_init_output_schema it) eqn:Hflag.
  - left. rewrite init_output_schema_again in Hcall by done.
    injection Hcall as _ <-. done.
  - right. rewrite init_output_schema_eq in Hcall by done. cbv zeta in Hcall.
    unfold DCHECK in Hcall.
    destruct NDEBUG.
    + simpl in Hcall. injection Hcall as _ <-. done.
    + destruct (0 <? num_fields _) eqn:Hpos; simpl in Hcall; [|done].
      injection Hcall as _ <-. split; [done|]. split; [done|].
      intros _. by apply num_fields_pos in Hpos.
Qed.

Lemma init_encoded_schema_returned dict_maps it st it' :
  init_encoded_schema dict_maps it = Returned (st, it') →
  it' = set_encoded_schema it
          (mkSchema _ (fields (_encoded_schema it) ++
                       (encoded_form dict_maps <$> fields (_schema it)))).
Proof. rewrite init_encoded_schema_eq. by injection 1 as _ <-. Qed.

Lemma kept_fields_ext unused1 unused2 (l : list Field) :
  (∀ field, field ∈ l → (Field_id field ∈ unused1 ↔ Field_id field ∈ unused2)) →
  kept_fields unused1 l = kept_fields unused2 l.
Proof.
  unfold kept_fields. induction l as [|field l IH]; intros Hsame; [done|].
  rewrite !filter_cons.
  assert (Field_id field ∈ unused1 ↔ Field_id field ∈ unused2) as Hhd
    by (apply Hsame; left).
  rewrite IH by (intros f Hf; apply Hsame; by right).
  destruct (decide (Field_id field ∉ unused1)),
           (decide (Field_id field ∉ unused2)); tauto.
Qed.

Lemma kept_fields_all unused (l : list Field) :
  kept_fields unused l = l ↔ ∀ field, field ∈ l → Field_id field ∉ unused.
Proof.
  unfold kept_fields. split.
  - intros Hall field Hin. rewrite <- Hall in Hin.
    by apply list_elem_of_filter in Hin as [Hout _].
  - induction l as [|field l IH]; intros Hall; [done|].
    rewrite filter_cons, decide_True by (apply Hall; left).
    f_equal. apply IH. intros f Hf. apply Hall. by right.
Qed.

Lemma kept_fields_fmap unused (g : Field → Field) (l : list Field) :
  (∀ field, Field_id (g field) = Field_id field) →
  kept_fields unused (g <$> l) = g <$> kept_fields unused l.
Proof.
  intros Hid. unfold kept_fields. induction l as [|field l IH]; [done|].
  rewrite fmap_cons, !filter_cons, IH, Hid.
  by destruct (decide (Field_id field ∉ unused)).
Qed.

Lemma encoded_form_id dict_maps field :
  (∀ f, Field_id (convert_to_dict_field f) = Field_id f) →
  Field_id (encoded_form dict_maps field) = Field_id field.
Proof. intros Hid. unfold encoded_form. by destruct (decide _). Qed.

Lemma encoded_form_cases dict_maps field :
  encoded_form dict_maps field = field ∨
  encoded_form dict_maps field = convert_to_dict_field field.
Proof. unfold encoded_form. destruct (decide _); auto. Qed.

(** With an empty base schema the encoded schema stays empty. *)
Lemma reachable_empty_schema it :
  reachable it → fields (_schema it) = [] → fields (_encoded_schema it) = [].
Proof.
  induction 1 as [sch|sch cs|dict_maps it st it' Hr IH Hcall
                 |unused it st it' Hr IH Hcall]; intros Hbase; [done|done|..].
  - apply init_encoded_schema_returned in Hcall as ->. simpl in *.
    by rewrite Hbase, IH.
  - apply init_output_schema_returned in Hcall as [[_ ->]|(_ & -> & _)];
      by apply IH.
Qed.

(** X1. Before any initialiser is called the three views coincide: for
    both constructors, [schema], [encoded_schema] and [output_schema] all
    return the schema given to the constructor, and [chunk_size] returns
    the given size, or the default one. *)
Theorem fresh_iterator_views s (size : Z) :
  schema (ChunkIterator_new s) = s ∧
  encoded_schema (ChunkIterator_new s) = s ∧
  output_schema (ChunkIterator_new s) = s ∧
  chunk_size (ChunkIterator_new s) = DEFAULT_CHUNK_SIZE ∧
  schema (ChunkIterator_new_sized s size) = s ∧
  encoded_schema (ChunkIterator_new_sized s size) = s ∧
  output_schema (ChunkIterator_new_sized s size) = s ∧
  chunk_size (ChunkIterator_new_sized s size) = size.
Proof. repeat split. Qed.

(** X2. No sequence of initialiser calls changes the base schema or the
    chunk size. *)
Theorem init_steps_keep_base it it' :
  init_steps it it' →
  schema it' = schema it ∧ chunk_size it' = chunk_size it.
Proof.
  induction 1 as [it|dict_maps it st it1 it2 Hcall _ IH
                 |unused it st it1 it2 Hcall _ IH]; [done|..].
  - apply init_encoded_schema_returned in Hcall as ->.
    destruct IH as [-> ->]. done.
  - apply init_output_schema_returned in Hcall as [[_ ->]|(_ & -> & _)];
      destruct IH as [-> ->]; done.
Qed.

(** X3. In every state built by the constructors and initialisers, the
    private encoded schema holds a whole number of rounds: its field count
    is a multiple of the field count of the base schema. *)
Theorem reachable_encoded_rounds it :
  reachable it →
  ∃ n : N, num_fields (_encoded_schema it) = n * num_fields (schema it).
Proof.
  induction 1 as [sch|sch cs|dict_maps it st it' Hr [n IH] Hcall
                 |unused it st it' Hr [n IH] Hcall].
  - by exists 0.
  - by exists 0.
  - apply init_encoded_schema_returned in Hcall as ->. exists (n + 1).
    unfold num_fields, schema in *. simpl.
    rewrite length_app, length_fmap, Nat2N.inj_add, IH. lia.
  - apply init_output_schema_returned in Hcall as [[_ ->]|(_ & -> & _)];
      by exists n.
Qed.

(** X4. The iterator never invents a field: in every state built by the
    constructors and initialisers, each field of the encoded schema and of
    the output schema is a field of the base schema or the dictionary form
    of one. *)
Theorem reachable_fields_from_base it field :
  reachable it →
  field ∈ fields (_encoded_schema it) ∨ field ∈ fields (_output_schema it) →
  ∃ b, b ∈ fields (schema it) ∧ (field = b ∨ field = convert_to_dict_field b).
Proof.
  intros Hr. revert field.
  induction Hr as [sch|sch cs|dict_maps it st it' Hr IH Hcall
                  |unused it st it' Hr IH Hcall]; intros field.
  - simpl. intros [Hin|Hin]; by apply elem_of_nil in Hin.
  - simpl. intros [Hin|Hin]; by apply elem_of_nil in Hin.
  - apply init_encoded_schema_returned in Hcall as ->. unfold schema. simpl.
    rewrite elem_of_app, list_elem_of_fmap.
    intros [[Hold|(b & -> & Hb)]|Hout].
    + apply IH. by left.
    + exists b. split; [done|]. apply encoded_form_cases.
    + apply IH. by right.
  - apply init_output_schema_returned in Hcall as [[_ ->]|(_ & -> & _)];
      [apply IH|].
    unfold schema. simpl. rewrite elem_of_app.
    intros [Henc|[Hout|Hkept]].
    + apply IH. by left.
    + apply IH. by right.
    + apply list_elem_of_filter in Hkept as [_ Hin].
      unfold encoded_schema in Hin.
      destruct (num_fields (_encoded_schema it) =? 0).
      * exists field. auto.
      * apply IH. by left.
Qed.

(** X5. In a build that keeps [DCHECK], an initialised projection is never
    empty: in every state built by the constructors and initialisers with
    the projection initialised, [output_schema] has at least one field. *)
Theorem reachable_projection_nonempty it :
  NDEBUG = false →
  reachable it →
  _is_init_output_schema it = true →
  fields (output_schema it) ≠ [].
Proof.
  intros Hdebug Hr. unfold output_schema.
  induction Hr as [sch|sch cs|dict_maps it st it' Hr IH Hcall
                  |unused it st it' Hr IH Hcall]; intros Hflag; [done|done|..].
  - apply init_encoded_schema_returned in Hcall as ->. simpl in *.
    rewrite Hflag in IH |- *. by apply IH.
  - apply init_output_schema_returned in Hcall as [[_ ->]|(_ & Hit' & Hne)];
      [by apply IH|].
    rewrite Hflag. by apply Hne.
Qed.

(** X6. An initialised projection is frozen: whatever initialisers are
    called afterwards, in any order and with any arguments, the projection
    stays initialised and [output_schema] keeps returning the same schema;
    a later [init_encoded_schema] in particular does not reach it. *)
Theorem init_steps_projection_frozen it it' :
  init_steps it it' →
  _is_init_output_schema it = true →
  _is_init_output_schema it' = true ∧ output_schema it' = output_schema it.
Proof.
  induction 1 as [it|dict_maps it st it1 it2 Hcall _ IH
                 |unused it st it1 it2 Hcall _ IH]; intros Hflag; [done|..].
  - apply init_encoded_schema_returned in Hcall as ->.
    destruct IH as [-> ->]; [done|].
    unfold output_schema. simpl. by rewrite Hflag.
  - apply init_output_schema_returned in Hcall as [[_ ->]|(Hoff & _)];
      [by apply IH | congruence].
Qed.

End schema_invariants.

Section schema_arguments.
Context `{Env}.
Implicit Types (it : ChunkIterator) (s : Schema) (field : Field).
Implicit Types (dict_maps : gmap ColumnId GlobalDict) (unused : gset ColumnId).

(** X7. [init_encoded_schema] reads the dictionary map only through the
    presence of the ids of the base fields: two maps that have entries for
    the same base-field ids give the same result, whatever the entries
    hold and whatever other ids the maps name. *)
Theorem init_encoded_schema_by_presence dict_maps1 dict_maps2 it :
  (∀ field, field ∈ fields (schema it) →
     (is_Some (dict_maps1 !! Field_id field) ↔
      is_Some (dict_maps2 !! Field_id field))) →
  init_encoded_schema dict_maps1 it = init_encoded_schema dict_maps2 it.
Proof.
  intros Hsame. rewrite !init_encoded_schema_eq. do 5 f_equal.
  apply list_fmap_ext. intros i field Hi.
  apply list_elem_of_lookup_2, Hsame in Hi. unfold encoded_form.
  destruct (decide (is_Some (dict_maps1 !! Field_id field))),
           (decide (is_Some (dict_maps2 !! Field_id field))); tauto.
Qed.

(** X8. [init_output_schema] reads the unused set only at the ids of the
    fields of the encoded schema: two sets that agree on those ids give
    the same result, whatever other ids they name. *)
Theorem init_output_schema_by_membership unused1 unused2 it :
  (∀ field, field ∈ fields (encoded_schema it) →
     (Field_id field ∈ unused1 ↔ Field_id field ∈ unused2)) →
  init_output_schema unused1 it = init_output_schema unused2 it.
Proof.
  intros Hsame. destruct (_is_init_output_schema it) eqn:Hflag.
  - by rewrite !init_output_schema_again.
  - rewrite !init_output_schema_eq by done.
    by rewrite (kept_fields_ext unused1 unused2 _ Hsame).
Qed.

(** X9. A first projection that returns keeps the whole encoded schema
    exactly when no field id of the encoded schema is in the unused set;
    in particular pruning by the empty set, or by ids the schema does not
    have, changes nothing. *)
Theorem init_output_schema_keeps_all unused it st it' :
  reachable it →
  _is_init_output_schema it = false →
  init_output_schema unused it = Returned (st, it') →
  (output_schema it' = encoded_schema it ↔
   ∀ field, field ∈ fields (encoded_schema it) → Field_id field ∉ unused).
Proof.
  intros Hr Hflag Hcall.
  apply init_output_schema_returned in Hcall as [[Hon _]|(_ & -> & _)];
    [congruence|].
  rewrite (reachable_output_empty it Hr Hflag).
  unfold output_schema. simpl. rewrite <- kept_fields_all. split.
  - intros Heq. by apply (f_equal fields) in Heq.
  - intros Hall. by apply Schema_eq.
Qed.

(** X10. Encoding and pruning commute when the dictionary form of a field
    keeps its id: on a fresh state, [init_encoded_schema] followed by
    [init_output_schema] leaves as output schema the encoded forms of the
    base fields whose id is not unused, in base order. *)
Theorem encode_then_project dict_maps unused it st1 it1 st2 it2 :
  (∀ field, Field_id (convert_to_dict_field field) = Field_id field) →
  reachable it →
  _is_init_output_schema it = false →
  fields (_encoded_schema it) = [] →
  init_encoded_schema dict_maps it = Returned (st1, it1) →
  init_output_schema unused it1 = Returned (st2, it2) →
  fields (output_schema it2) =
    encoded_form dict_maps <$>
      filter (λ field, Field_id field ∉ unused) (fields (schema it)).
Proof.
  intros Hid Hr Hflag Hfresh Hcall1 Hcall2.
  assert (reachable it1) as Hr1 by (by eapply reachable_init_encoded_schema).
  apply init_encoded_schema_returned in Hcall1 as ->.
  rewrite Hfresh in *. simpl in *.
  apply init_output_schema_returned in Hcall2 as [[Hon _]|(_ & -> & _)];
    [simpl in Hon; congruence|].
  rewrite (reachable_output_empty _ Hr1 Hflag).
  unfold output_schema. simpl.
  rewrite (encoded_schema_of_image it (encoded_form dict_maps)).
  apply kept_fields_fmap. intros field. by apply encoded_form_id.
Qed.

(** X11. When the dictionary form of a field keeps its id, the encoded
    schema lists the ids of the base schema, in the same order: encoding
    changes what a column is, never which column stands where. *)
Theorem init_encoded_schema_keeps_ids dict_maps it st it' :
  (∀ field, Field_id (convert_to_dict_field field) = Field_id field) →
  fields (_encoded_schema it) = [] →
  init_encoded_schema dict_maps it = Returned (st, it') →
  Field_id <$> fields (encoded_schema it') = Field_id <$> fields (schema it).
Proof.
  intros Hid Hfresh Hcall.
  apply init_encoded_schema_returned in Hcall as ->. rewrite Hfresh. simpl.
  rewrite (encoded_schema_of_image it (encoded_form dict_maps)).
  rewrite <- list_fmap_compose. apply list_fmap_ext. intros i field _.
  by apply encoded_form_id.
Qed.

(** X12. An iterator over an empty base schema cannot be projected: its
    first [init_output_schema] dies on the check in a build that keeps
    [DCHECK], and in an NDEBUG build returns OK with an empty output
    schema, for every unused set and however often the encoded schema was
    initialised before. *)
Theorem init_output_schema_empty_base unused it :
  reachable it →
  fields (schema it) = [] →
  _is_init_output_schema it = false →
  (NDEBUG = false → init_output_schema unused it = Aborted) ∧
  (NDEBUG = true →
   ∃ it', init_output_schema unused it = Returned (OK, it') ∧
          fields (output_schema it') = []).
Proof.
  intros Hr Hbase Hflag.
  assert (fields (encoded_schema it) = []) as Henc.
  { unfold encoded_schema. destruct (num_fields _ =? 0); [done|].
    by apply reachable_empty_schema. }
  split; intros Hbuild.
  - apply init_output_schema_aborts. rewrite Henc.
    split; [done|]. split; [done|]. split; [|done].
    by apply reachable_output_empty.
  - rewrite init_output_schema_eq by done. cbv zeta.
    rewrite Henc, (reachable_output_empty it Hr Hflag). unfold DCHECK.
    rewrite Hbuild. simpl. eexists. split; [reflexivity|]. done.
Qed.

End schema_arguments.

Section public_fetch.
Context `{Env} {Self : Type} (cls : ChunkIteratorClass Self).
Implicit Types (self : Self) (chunk : ChunkPtr).
Implicit Types (rowid : RowidPtr) (source_masks : SourceMasksPtr).

Lemma DCHECK_CHUNK_release chunk : NDEBUG = true → DCHECK_CHUNK chunk = Returned tt.
Proof. intros Hbuild. unfold DCHECK_CHUNK, DCHECK. by rewrite Hbuild. Qed.

Lemma DCHECK_CHUNK_returned chunk u :
  DCHECK_CHUNK chunk = Returned u → NDEBUG = false → chunk_check chunk = true.
Proof.
  unfold DCHECK_CHUNK, DCHECK. intros Hc Hbuild. rewrite Hbuild in Hc.
  by destruct (chunk_check chunk).
Qed.

(** X13. In an NDEBUG build the public fetch functions are their virtual
    hooks: each of the three overloads of [get_next] gives exactly what
    the [do_get_next] it dispatches to gives. *)
Theorem get_next_release self chunk rowid source_masks :
  NDEBUG = true →
  get_next cls self chunk = do_get_next cls self chunk ∧
  get_next_rowid cls self chunk rowid =
    do_get_next_rowid cls self chunk rowid ∧
  get_next_masks cls self chunk source_masks =
    do_get_next_masks cls self chunk source_masks.
Proof.
  intros Hbuild. unfold get_next, get_next_rowid, get_next_masks.
  split; [|split].
  - destruct (do_get_next cls self chunk) as [[[st self'] chunk']|]; [|done].
    simpl. by rewrite DCHECK_CHUNK_release.
  - destruct (do_get_next_rowid cls self chunk rowid)
      as [[[[st self'] chunk'] rowid']|]; [|done].
    simpl. by rewrite DCHECK_CHUNK_release.
  - destruct (do_get_next_masks cls self chunk source_masks)
      as [[[[st self'] chunk'] masks']|]; [|done].
    simpl. by rewrite DCHECK_CHUNK_release.
Qed.

(** X14. The check after a fetch can stop the program but cannot change a
    result: whenever the public [get_next] returns, it returns the status,
    iterator state and chunk its hook returned, and in a build that keeps
    [DCHECK] that chunk has passed [DCHECK_CHUNK]. *)
Theorem get_next_returns_hook self chunk st self' chunk' :
  get_next cls self chunk = Returned (st, self', chunk') →
  do_get_next cls self chunk = Returned (st, self', chunk') ∧
  (NDEBUG = false → chunk_check chunk' = true).
Proof.
  unfold get_next.
  destruct (do_get_next cls self chunk) as [[[st0 self0] chunk0]|]; [|done].
  simpl. destruct (DCHECK_CHUNK chunk0) as [u|] eqn:Hc; [|done].
  simpl. intros [= <- <- <-]. split; [done|].
  by eapply DCHECK_CHUNK_returned.
Qed.

End public_fetch.

Section s3_input_stream.
Context {S3ClientPtr : Type}.
Local Open Scope Z_scope.


End s3_input_stream.

(** * The further properties on the scenario iterators *)

Section invariant_scenarios.

Lemma cf_to_dict_keeps_id (f : ColumnField) : cf_id (cf_to_dict f) = cf_id f.
Proof. reflexivity. Qed.

Lemma scenario_encoded_then_projected :
  init_output_schema {[1]} (encoded_iterator false) =
  Returned (OK, encoded_projected_iterator false).
Proof. vm_compute. reflexivity. Qed.

Lemma scenario_steps :
  init_steps (scenario_iterator false) (encoded_projected_iterator false).
Proof.
  eapply init_steps_encoded; [apply scenario_encoded|].
  eapply init_steps_output; [apply scenario_encoded_then_projected|].
  apply init_steps_done.
Qed.

Lemma scenario_steps_after_projection :
  init_steps (projected_iterator false) (projected_encoded_iterator false).
Proof.
  eapply (init_steps_encoded (dict_city false) _ OK
            (projected_encoded_iterator false)); [vm_compute; reflexivity|].
  eapply (init_steps_output {[2]} _ OK (projected_encoded_iterator false));
    [vm_compute; reflexivity|].
  apply init_steps_done.
Qed.

Lemma init_steps_keep_base_scenario :
  schema (encoded_projected_iterator false) =
    schema (scenario_iterator false) ∧
  chunk_size (encoded_projected_iterator false) =
    chunk_size (scenario_iterator false).
Proof.
  apply (init_steps_keep_base (scenario_iterator false)
           (encoded_projected_iterator false)).
  exact scenario_steps.
Defined.

Lemma reachable_encoded_rounds_scenario :
  ∃ n : N, num_fields (_encoded_schema (encoded_iterator false)) =
           n * num_fields (schema (encoded_iterator false)).
Proof.
  apply (reachable_encoded_rounds (encoded_iterator false)).
  exact reachable_encoded_iterator.
Defined.

Lemma reachable_fields_from_base_scenario :
  ∃ b, b ∈ fields (schema (encoded_iterator false)) ∧
       (cf_to_dict field2 = b ∨ cf_to_dict field2 = cf_to_dict b).
Proof.
  apply (reachable_fields_from_base (encoded_iterator false)
           (cf_to_dict field2)).
  - exact reachable_encoded_iterator.
  - left. simpl. apply list_elem_of_further, list_elem_of_here.
Defined.

Lemma reachable_projection_nonempty_scenario :
  fields (output_schema (projected_iterator false)) ≠ [].
Proof.
  apply (reachable_projection_nonempty (projected_iterator false)).
  - reflexivity.
  - exact reachable_projected_iterator.
  - reflexivity.
Defined.

Lemma init_steps_projection_frozen_scenario :
  _is_init_output_schema (projected_encoded_iterator false) = true ∧
  output_schema (projected_encoded_iterator false) =
    output_schema (projected_iterator false).
Proof.
  apply (init_steps_projection_frozen (projected_iterator false)
           (projected_encoded_iterator false)).
  - exact scenario_steps_after_projection.
  - reflexivity.
Defined.

Lemma init_encoded_schema_by_presence_scenario :
  init_encoded_schema (dict_city false) (scenario_iterator false) =
  init_encoded_schema (dict_city_other false) (scenario_iterator false).
Proof.
  apply (init_encoded_schema_by_presence (dict_city false)
           (dict_city_other false) (scenario_iterator false)).
  apply Forall_forall. repeat constructor; vm_compute; eauto.
Defined.

End invariant_scenarios.

Section argument_scenarios.

Lemma scenario_unpruned :
  init_output_schema {[7]} (scenario_iterator false) =
  Returned (OK, unpruned_iterator false).
Proof. vm_compute. reflexivity. Qed.

Lemma init_output_schema_by_membership_scenario :
  init_output_schema {[1]} (scenario_iterator false) =
  init_output_schema {[1; 7]} (scenario_iterator false).
Proof.
  apply (init_output_schema_by_membership {[1]} {[1; 7]}
           (scenario_iterator false)).
  apply Forall_forall. repeat constructor; vm_compute; intros Hin;
    repeat case_match; done.
Defined.

Lemma init_output_schema_keeps_all_scenario :
  output_schema (unpruned_iterator false) =
  encoded_schema (scenario_iterator false).
Proof.
  apply (init_output_schema_keeps_all {[7]} (scenario_iterator false) OK
           (unpruned_iterator false)).
  - apply (reachable_new (three_fields false)).
  - reflexivity.
  - exact scenario_unpruned.
  - apply Forall_forall. repeat constructor; vm_compute; discriminate.
Defined.

Lemma encode_then_project_scenario :
  fields (output_schema (encoded_projected_iterator false)) =
  [cf_to_dict field2; field3].
Proof.
  rewrite (encode_then_project (dict_city false) {[1]}
             (scenario_iterator false) OK (encoded_iterator false) OK
             (encoded_projected_iterator false)).
  - vm_compute. reflexivity.
  - exact cf_to_dict_keeps_id.
  - apply (reachable_new (three_fields false)).
  - reflexivity.
  - reflexivity.
  - exact scenario_encoded.
  - exact scenario_encoded_then_projected.
Defined.

Lemma init_encoded_schema_keeps_ids_scenario :
  cf_id <$> fields (encoded_schema (encoded_iterator false)) = [1; 2; 3].
Proof.
  change (cf_id <$> fields (encoded_schema (encoded_iterator false)))
    with (@Field_id (scenario_env false) <$>
            fields (encoded_schema (encoded_iterator false))).
  rewrite (init_encoded_schema_keeps_ids (dict_city false)
             (scenario_iterator false) OK (encoded_iterator false)).
  - reflexivity.
  - exact cf_to_dict_keeps_id.
  - reflexivity.
  - exact scenario_encoded.
Defined.

Lemma init_output_schema_empty_base_scenario :
  init_output_schema {[1]} (empty_iterator false) = Aborted ∧
  ∃ it', init_output_schema {[1]} (empty_iterator true) = Returned (OK, it') ∧
         fields (output_schema it') = [].
Proof.
  split.
  - apply (init_output_schema_empty_base {[1]} (empty_iterator false));
      [apply (reachable_new (no_fields false)) | reflexivity..].
  - apply (init_output_schema_empty_base {[1]} (empty_iterator true));
      [apply (reachable_new (no_fields true)) | reflexivity..].
Defined.

Lemma get_next_release_scenario :
  get_next (queue_class (scenario_env true)) (queue_iterator true)
    (empty_chunk true) =
  do_get_next (queue_class (scenario_env true)) (queue_iterator true)
    (empty_chunk true).
Proof.
  apply (get_next_release (queue_class (scenario_env true))
           (queue_iterator true) (empty_chunk true) None None).
  reflexivity.
Defined.

Lemma get_next_returns_hook_scenario :
  do_get_next (queue_class (scenario_env false)) (queue_iterator false)
    (empty_chunk false) =
    Returned (OK, drained_iterator false, Some batch1) ∧
  (@NDEBUG (scenario_env false) = false →
   @chunk_check (scenario_env false) (Some batch1) = true).
Proof.
  apply (get_next_returns_hook (queue_class (scenario_env false))
           (queue_iterator false) (empty_chunk false)).
  reflexivity.
Defined.

End argument_scenarios.
